(** * MarkFlow: the block list and its Markdown export

    A shallow embedding of the document model of [src/App.tsx]
    ([addBlock], [updateBlock], [removeBlock], [moveBlock] and
    [generateMarkdownString]) over the types of [src/types.ts]
    ([BlockType], [BlockData]), followed by the properties of these
    operations.

    Conventions of the embedding.
    - React state: every operation of the source is a state updater
      [prev => next] handed to [setBlocks]; it is embedded as the pure
      function from [prev] to [next].
    - JavaScript numbers that hold array indices are modelled in [Z]
      ([findIndex] answers [-1]), and converted with [Z.to_nat] where an
      array is read or written.
    - An optional property ([metadata?], [language?], ...) is an [option];
      [None] is the absent property.  Objects that hold [undefined] in a
      property [BlockData] requires, and partial fields that carry a
      property as [undefined], are the subject of module [Js].
    - [===] and [!==] on strings are decided equality ([bool_decide]).
    - [crypto.randomUUID()] is an input of [addBlock]. *)

From Stdlib Require Import Ascii String ZArith Lia.
From stdpp Require Import base list strings pretty.

(* String literals are read in [string_scope]; [++] stays list append and
   strings are appended with [+:+]. *)
Open Scope string_scope.
Open Scope list_scope.

Module MarkFlow.

(** ** Data model ([types.ts]) *)

Inductive BlockType : Set :=
  | h1 | h2 | h3 | paragraph | image | code | blockquote
  | list_ul | list_ol | divider.

(** The string literal each member of the union [BlockType] stands for. *)
Definition BlockType_literal (t : BlockType) : string :=
  match t with
  | h1 => "h1"
  | h2 => "h2"
  | h3 => "h3"
  | paragraph => "paragraph"
  | image => "image"
  | code => "code"
  | blockquote => "blockquote"
  | list_ul => "list-ul"
  | list_ol => "list-ol"
  | divider => "divider"
  end.

Record Metadata : Set := mkMetadata {
  language : option string;
  alt : option string;
  items : option (list string)
}.

Record BlockData : Set := mkBlock {
  id : string;
  type : BlockType;
  content : string;
  metadata : option Metadata
}.

(** [Partial<BlockData>], for partial fields in which every property that
    is carried has a value: [None] is a property the argument does not
    carry.  [metadata] is optional in [BlockData] already, so an update may
    leave it out ([None]), or carry it, possibly as [undefined] ([Some
    None]).  Partial fields that carry [id], [type] or [content] as
    [undefined] are [Js.PartialBlockData] below. *)
Record PartialBlockData : Set := mkPartial {
  p_id : option string;
  p_type : option BlockType;
  p_content : option string;
  p_metadata : option (option Metadata)
}.

Inductive Direction : Set := up | down.

Definition is_up (d : Direction) : bool :=
  match d with up => true | down => false end.

Definition is_down (d : Direction) : bool :=
  match d with up => false | down => true end.

(** ** JavaScript primitives used by the source *)

Definition nl : string := String "010"%char EmptyString.

(** [s.includes(sub)]: [sub] occurs in [s] at some position. *)
Fixpoint includes (s sub : string) : bool :=
  String.prefix sub s ||
  match s with
  | EmptyString => false
  | String _ s' => includes s' sub
  end.

(** [o || d] on an optional string: [undefined] and the empty string are
    falsy. *)
Definition or_string (o : option string) (d : string) : string :=
  match o with
  | Some s => if bool_decide (s = EmptyString) then d else s
  | None => d
  end.

(** [o || []] on an optional array: every array is truthy. *)
Definition or_array (o : option (list string)) : list string :=
  match o with
  | Some l => l
  | None => []
  end.

(** [a.join(sep)] on an array of strings. *)
Fixpoint join (sep : string) (a : list string) : string :=
  match a with
  | [] => EmptyString
  | x :: rest =>
      match rest with
      | [] => x
      | _ :: _ => x +:+ sep +:+ join sep rest
      end
  end.

(** [a.map((item, i) => f item i)], the index counted from [i0]. *)
Fixpoint map_indexed {A B : Type} (f : A -> nat -> B) (i0 : nat) (a : list A)
  : list B :=
  match a with
  | [] => []
  | x :: rest => f x i0 :: map_indexed f (S i0) rest
  end.

(** [a.findIndex(p)], the index counted from [i0]; [-1] when no element
    satisfies [p]. *)
Fixpoint findIndex_from {A : Type} (p : A -> bool) (i0 : Z) (a : list A) : Z :=
  match a with
  | [] => (-1)%Z
  | x :: rest => if p x then i0 else findIndex_from p (i0 + 1)%Z rest
  end.

Definition findIndex {A : Type} (p : A -> bool) (a : list A) : Z :=
  findIndex_from p 0%Z a.

(** [{ ...b, ...updates }]: the properties present in [updates] replace
    those of [b]. *)
Definition spread (b : BlockData) (updates : PartialBlockData) : BlockData :=
  {| id := default (id b) (p_id updates);
     type := default (type b) (p_type updates);
     content := default (content b) (p_content updates);
     metadata := default (metadata b) (p_metadata updates) |}.

(** ** Block management ([App.tsx], lines 21-51) *)

Definition empty_metadata : Metadata :=
  {| language := None; alt := None; items := None |}.

Definition addBlock (uuid : string) (type0 : BlockType)
  (prev : list BlockData) : list BlockData :=
  let newBlock :=
    {| id := uuid;
       type := type0;
       content := EmptyString;
       metadata :=
         if includes (BlockType_literal type0) "list"
         then Some {| language := None; alt := None;
                      items := Some [EmptyString] |}
         else Some empty_metadata |} in
  prev ++ [newBlock].

Definition updateBlock (id0 : string) (updates : PartialBlockData)
  (prev : list BlockData) : list BlockData :=
  map (fun b => if bool_decide (id b = id0) then spread b updates else b) prev.

Definition removeBlock (id0 : string) (prev : list BlockData)
  : list BlockData :=
  filter (fun b => id b ≠ id0) prev.

(** The destructuring swap of line 48 reads both cells, then writes
    [newBlocks[index]] and [newBlocks[swapIndex]].  Both indices are inside
    the array whenever the three guards let control reach the swap (lemma
    [moveBlock_swap_in_range]), so the last branch of the [match] is never
    taken. *)
Definition moveBlock (id0 : string) (direction : Direction)
  (prev : list BlockData) : list BlockData :=
  let index := findIndex (fun b => bool_decide (id b = id0)) prev in
  if (index =? -1)%Z then prev
  else if is_up direction && (index =? 0)%Z then prev
  else if is_down direction && (index =? Z.of_nat (length prev) - 1)%Z
  then prev
  else
    let newBlocks := prev in
    let swapIndex := if is_up direction then (index - 1)%Z else (index + 1)%Z in
    match newBlocks !! Z.to_nat swapIndex, newBlocks !! Z.to_nat index with
    | Some at_swap, Some at_index =>
        <[Z.to_nat swapIndex := at_index]>
          (<[Z.to_nat index := at_swap]> newBlocks)
    | _, _ => newBlocks
    end.

(** ** Output generation ([App.tsx], lines 55-71) *)

Definition block_language (block : BlockData) : option string :=
  metadata block ≫= language.

Definition block_alt (block : BlockData) : option string :=
  metadata block ≫= alt.

Definition block_items (block : BlockData) : option (list string) :=
  metadata block ≫= items.

(** The callback of the outer [map]: the [switch] on [block.type].  The
    [default] arm of the source is not reachable for a [BlockType]. *)
Definition render (block : BlockData) : string :=
  match type block with
  | h1 => "# " +:+ content block
  | h2 => "## " +:+ content block
  | h3 => "### " +:+ content block
  | paragraph => content block
  | blockquote => "> " +:+ content block
  | code =>
      "```" +:+ or_string (block_language block) EmptyString +:+ nl
        +:+ content block +:+ nl +:+ "```"
  | image =>
      "![" +:+ or_string (block_alt block) "image" +:+ "]("
        +:+ content block +:+ ")"
  | list_ul =>
      join nl (map (fun item => "- " +:+ item) (or_array (block_items block)))
  | list_ol =>
      join nl (map_indexed (fun item i => pretty (i + 1)%nat +:+ ". " +:+ item)
                 0 (or_array (block_items block)))
  | divider => "---"
  end.

Definition generateMarkdownString (currentBlocks : list BlockData) : string :=
  join (nl +:+ nl) (map render currentBlocks).

(** Two blocks that agree on everything but, possibly, their [id]. *)
Definition same_but_id (b c : BlockData) : Prop :=
  type b = type c ∧ content b = content c ∧ metadata b = metadata c.

(** The document the application starts with ([INITIAL_BLOCKS]). *)
Definition INITIAL_BLOCKS : list BlockData :=
  [ {| id := "1"; type := h1; content := "Welcome to MarkFlow";
       metadata := None |};
    {| id := "2"; type := paragraph;
       content := "This is a low-code Markdown editor designed with the Gemini aesthetics. Drag blocks and export seamlessly.";
       metadata := None |} ].

(** ** The edit view ([App.tsx], lines 206-216)

    In edit mode the document is mapped to one [BlockEditor] element per
    block.  The element is embedded as the record of the data it is given;
    the three callbacks it also receives are [updateBlock], [removeBlock]
    and [moveBlock] themselves. *)
Record BlockEditorProps : Set := mkEditor {
  key : string;
  block : BlockData;
  isFirst : bool;
  isLast : bool
}.

Definition blockEditors (blocks : list BlockData) : list BlockEditorProps :=
  map_indexed
    (fun block0 index =>
       {| key := id block0;
          block := block0;
          isFirst := (Z.of_nat index =? 0)%Z;
          isLast := (Z.of_nat index =? Z.of_nat (length blocks) - 1)%Z |})
    0 blocks.

(** ** Blocks and partial fields as the running program holds them

    [Partial<BlockData>] also admits an argument that carries a property
    with the value [undefined] ([{ content: undefined }]), and the spread
    of [updateBlock] copies such a property like any other.  The block it
    yields holds [undefined] where [BlockData] promises a value, so it is
    no [BlockData] above.  Module [Js] embeds the code over these objects:
    a property that [BlockData] requires is an [option] there ([None] is
    [undefined]), and a property of the partial fields is absent ([None]),
    carried as [undefined] ([Some None]) or carried with a value ([Some
    (Some v)]).  The id an operation is called with stays a [string], as
    its signature says.  On blocks without [undefined] and on partial
    fields that carry values only, the definitions of [Js] agree with
    those above (lemmas [spread_raw], [updateBlock_raw], [removeBlock_raw]
    and [generateMarkdownString_raw]). *)
Module Js.

Record BlockData : Set := mkBlock {
  id : option string;
  type : option BlockType;
  content : option string;
  metadata : option Metadata
}.

Record PartialBlockData : Set := mkPartial {
  p_id : option (option string);
  p_type : option (option BlockType);
  p_content : option (option string);
  p_metadata : option (option Metadata)
}.

(** [{ ...b, ...updates }]: every property that [updates] carries, also
    one that is [undefined], replaces that of [b]. *)
Definition spread (b : BlockData) (updates : PartialBlockData) : BlockData :=
  {| id := default (id b) (p_id updates);
     type := default (type b) (p_type updates);
     content := default (content b) (p_content updates);
     metadata := default (metadata b) (p_metadata updates) |}.

(** [b.id === id] compares with a string: an [undefined] id never
    matches. *)
Definition updateBlock (id0 : string) (updates : PartialBlockData)
  (prev : list BlockData) : list BlockData :=
  map (fun b => if bool_decide (id b = Some id0) then spread b updates else b)
    prev.

Definition removeBlock (id0 : string) (prev : list BlockData)
  : list BlockData :=
  filter (fun b => id b ≠ Some id0) prev.

(** [${x}] inside a template literal: a string as it is, [undefined] as
    the text "undefined". *)
Definition to_string (x : option string) : string :=
  match x with
  | Some s => s
  | None => "undefined"
  end.

(** The [switch] on [block.type]; an [undefined] type reaches the
    [default] arm. *)
Definition render (block : BlockData) : string :=
  match type block with
  | Some h1 => "# " +:+ to_string (content block)
  | Some h2 => "## " +:+ to_string (content block)
  | Some h3 => "### " +:+ to_string (content block)
  | Some paragraph => to_string (content block)
  | Some blockquote => "> " +:+ to_string (content block)
  | Some code =>
      "```" +:+ or_string (metadata block ≫= language) EmptyString +:+ nl
        +:+ to_string (content block) +:+ nl +:+ "```"
  | Some image =>
      "![" +:+ or_string (metadata block ≫= alt) "image" +:+ "]("
        +:+ to_string (content block) +:+ ")"
  | Some list_ul =>
      join nl (map (fun item => "- " +:+ item)
                 (or_array (metadata block ≫= items)))
  | Some list_ol =>
      join nl (map_indexed (fun item i => pretty (i + 1)%nat +:+ ". " +:+ item)
                 0 (or_array (metadata block ≫= items)))
  | Some divider => "---"
  | None => EmptyString
  end.

Definition generateMarkdownString (currentBlocks : list BlockData) : string :=
  join (nl +:+ nl) (map render currentBlocks).

End Js.

(** A block that holds a value for every required property, and partial
    fields that carry values only, as objects of the running program. *)
Definition raw (b : BlockData) : Js.BlockData :=
  {| Js.id := Some (id b);
     Js.type := Some (type b);
     Js.content := Some (content b);
     Js.metadata := metadata b |}.

Definition raw_partial (u : PartialBlockData) : Js.PartialBlockData :=
  {| Js.p_id := Some <$> p_id u;
     Js.p_type := Some <$> p_type u;
     Js.p_content := Some <$> p_content u;
     Js.p_metadata := p_metadata u |}.

(** ** Facts about the primitives *)

Section Primitives.

Lemma append_assoc (a b c : string) : (a +:+ b) +:+ c = a +:+ b +:+ c.
Proof.
  induction a as [|ch a IH]; [done|].
  change (String ch ((a +:+ b) +:+ c) = String ch (a +:+ b +:+ c)).
  by rewrite IH.
Qed.

Lemma join_nil (sep : string) : join sep [] = EmptyString.
Proof. reflexivity. Qed.

Lemma join_singleton (sep x : string) : join sep [x] = x.
Proof. reflexivity. Qed.

Lemma join_cons_cons (sep x y : string) (rest : list string) :
  join sep (x :: y :: rest) = x +:+ sep +:+ join sep (y :: rest).
Proof. reflexivity. Qed.

Lemma or_string_empty (o : option string) :
  or_string o EmptyString = default EmptyString o.
Proof.
  destruct o as [s|]; simpl; [|done].
  case_bool_decide; by subst.
Qed.

Lemma or_string_nonempty (s d : string) :
  s ≠ EmptyString → or_string (Some s) d = s.
Proof. intros Hs. simpl. by rewrite bool_decide_eq_false_2. Qed.

Context {A B : Type}.

Lemma length_map_indexed (f : A → nat → B) (a : list A) (i0 : nat) :
  length (map_indexed f i0 a) = length a.
Proof.
  revert i0. induction a as [|x a IH]; intros i0; simpl; [done|].
  by rewrite IH.
Qed.

Lemma lookup_map_indexed (f : A → nat → B) (a : list A) (i0 i : nat) :
  map_indexed f i0 a !! i = (λ x, f x (i0 + i)) <$> a !! i.
Proof.
  revert i0 i. induction a as [|x a IH]; intros i0 [|i]; simpl; try done.
  - by rewrite Nat.add_0_r.
  - rewrite IH. by replace (S i0 + i) with (i0 + S i) by lia.
Qed.

Lemma findIndex_from_absent (p : A → bool) (i0 : Z) (a : list A) :
  Forall (λ x, p x = false) a → findIndex_from p i0 a = (-1)%Z.
Proof.
  intros Ha. revert i0.
  induction Ha as [|x a Hx _ IH]; intros i0; simpl; [done|].
  rewrite Hx. apply IH.
Qed.

Lemma findIndex_from_first (p : A → bool) (i0 : Z) (pre post : list A)
  (x : A) :
  Forall (λ y, p y = false) pre → p x = true →
  findIndex_from p i0 (pre ++ x :: post) = (i0 + Z.of_nat (length pre))%Z.
Proof.
  intros Hpre Hx. revert i0.
  induction Hpre as [|y pre Hy _ IH]; intros i0; simpl.
  - rewrite Hx. lia.
  - rewrite Hy, IH. lia.
Qed.

(** [findIndex] answers [-1] or the position of the first element that
    satisfies the predicate. *)
Lemma findIndex_from_cases (p : A → bool) (i0 : Z) (a : list A) :
  (Forall (λ x, p x = false) a ∧ findIndex_from p i0 a = (-1)%Z) ∨
  (∃ pre x post, a = pre ++ x :: post ∧ Forall (λ y, p y = false) pre ∧
     p x = true ∧
     findIndex_from p i0 a = (i0 + Z.of_nat (length pre))%Z).
Proof.
  revert i0. induction a as [|y a IH]; intros i0; simpl.
  - left. by split.
  - destruct (p y) eqn:Hy.
    + right. exists [], y, a. simpl. repeat split; [done..|lia].
    + destruct (IH (i0 + 1)%Z) as [[Hall ->]|(pre & x & post & -> & Hpre & Hx & ->)].
      * left. split; [by constructor | done].
      * right. exists (y :: pre), x, post. simpl.
        repeat split; [by constructor | done | lia].
Qed.

End Primitives.

(** ** The two embeddings agree on blocks and partial fields with values *)

Section RunTimeObjects.

Implicit Types (d : list BlockData) (b : BlockData) (u : PartialBlockData).

Lemma spread_raw b u : Js.spread (raw b) (raw_partial u) = raw (spread b u).
Proof. destruct u as [[?|] [?|] [?|] [?|]]; reflexivity. Qed.

Lemma updateBlock_raw (id0 : string) u d :
  Js.updateBlock id0 (raw_partial u) (map raw d)
  = map raw (updateBlock id0 u d).
Proof.
  unfold Js.updateBlock, updateBlock. rewrite !map_map.
  apply map_ext. intros b. simpl.
  destruct (decide (id b = id0)) as [Hb|Hb].
  - rewrite !bool_decide_eq_true_2 by congruence. apply spread_raw.
  - by rewrite !bool_decide_eq_false_2 by congruence.
Qed.

Lemma removeBlock_raw (id0 : string) d :
  Js.removeBlock id0 (map raw d) = map raw (removeBlock id0 d).
Proof.
  unfold Js.removeBlock, removeBlock.
  induction d as [|b d IH]; [done|].
  simpl map. rewrite !filter_cons, IH. simpl.
  destruct (decide (id b = id0)) as [Hb|Hb].
  - rewrite !decide_False; [done | by intros Hne | congruence].
  - rewrite !decide_True; [done | done | congruence].
Qed.

Lemma render_raw b : Js.render (raw b) = render b.
Proof. destruct b as [i [] c m]; reflexivity. Qed.

Lemma generateMarkdownString_raw d :
  Js.generateMarkdownString (map raw d) = generateMarkdownString d.
Proof.
  unfold Js.generateMarkdownString, generateMarkdownString.
  rewrite map_map. apply (f_equal (join (nl +:+ nl))).
  apply map_ext, render_raw.
Qed.

Lemma raw_ids d : map Js.id (map raw d) = map Some (map id d).
Proof. by rewrite !map_map. Qed.

Lemma Js_spread_keeps_id (b : Js.BlockData) (u : Js.PartialBlockData) :
  Js.p_id u = None → Js.id (Js.spread b u) = Js.id b.
Proof. intros Hu. unfold Js.spread. simpl. by rewrite Hu. Qed.

Lemma Js_removeBlock_cons_match (id0 : string) (b : Js.BlockData) r :
  Js.id b = Some id0 → Js.removeBlock id0 (b :: r) = Js.removeBlock id0 r.
Proof.
  intros Hb. unfold Js.removeBlock. rewrite filter_cons.
  rewrite decide_False; [done|]. by intros Hne.
Qed.

Lemma Js_removeBlock_cons_other (id0 : string) (b : Js.BlockData) r :
  Js.id b ≠ Some id0 →
  Js.removeBlock id0 (b :: r) = b :: Js.removeBlock id0 r.
Proof.
  intros Hb. unfold Js.removeBlock. rewrite filter_cons.
  by rewrite decide_True.
Qed.

(** The facts proved below for [updateBlock] on unknown ids, on repeated
    updates and on updates of two ids carry over to partial fields with
    [undefined] properties. *)

Lemma Js_spread_twice (b : Js.BlockData) (u : Js.PartialBlockData) :
  Js.spread (Js.spread b u) u = Js.spread b u.
Proof. destruct u as [[?|] [?|] [?|] [?|]]; reflexivity. Qed.

Lemma Js_updateBlock_absent
  (id0 : string) (u : Js.PartialBlockData) (r : list Js.BlockData) :
  Some id0 ∉ map Js.id r → Js.updateBlock id0 u r = r.
Proof.
  intros Hr. unfold Js.updateBlock.
  induction r as [|c r IH]; [done|]. simpl in *.
  rewrite not_elem_of_cons in Hr. destruct Hr as [Hc Hr].
  rewrite bool_decide_eq_false_2 by congruence. by rewrite IH.
Qed.

Lemma Js_updateBlock_idempotent
  (id0 : string) (u : Js.PartialBlockData) (r : list Js.BlockData) :
  Js.updateBlock id0 u (Js.updateBlock id0 u r) = Js.updateBlock id0 u r.
Proof.
  unfold Js.updateBlock. rewrite map_map. apply map_ext. intros c.
  destruct (bool_decide (Js.id c = Some id0)) eqn:Hc; [|by rewrite Hc].
  destruct (bool_decide (Js.id (Js.spread c u) = Some id0));
    [apply Js_spread_twice | done].
Qed.

Lemma Js_updateBlock_commutes
  (id1 id2 : string) (u1 u2 : Js.PartialBlockData) (r : list Js.BlockData) :
  id1 ≠ id2 → Js.p_id u1 = None → Js.p_id u2 = None →
  Js.updateBlock id1 u1 (Js.updateBlock id2 u2 r)
  = Js.updateBlock id2 u2 (Js.updateBlock id1 u1 r).
Proof.
  intros Hne Hu1 Hu2. unfold Js.updateBlock. rewrite !map_map.
  apply map_ext. intros c.
  destruct (bool_decide (Js.id c = Some id1)) eqn:H1;
    destruct (bool_decide (Js.id c = Some id2)) eqn:H2;
    rewrite ?Js_spread_keeps_id by done; rewrite ?H1, ?H2; try done.
  apply bool_decide_eq_true in H1, H2. congruence.
Qed.

(** Two runs with an [undefined] property: a content carried as
    [undefined] is exported as the text "undefined", and a block whose id
    was replaced by [undefined] is not found by its old id any more. *)
Lemma Js_undefined_content_is_exported :
  Js.generateMarkdownString
    (Js.updateBlock "1" (Js.mkPartial None None (Some None) None)
       (map raw (take 1 INITIAL_BLOCKS)))
  = "# undefined".
Proof. reflexivity. Qed.

Lemma Js_undefined_id_survives_removal :
  Js.removeBlock "1"
    (Js.updateBlock "1" (Js.mkPartial (Some None) None None None)
       (map raw (take 1 INITIAL_BLOCKS)))
  = [Js.mkBlock None (Some h1) (Some "Welcome to MarkFlow") None].
Proof. reflexivity. Qed.

End RunTimeObjects.

(** ** Facts about block management *)

(** Closes [x ∉ map id d] on a concrete document. *)
Ltac not_among_ids :=
  simpl; rewrite ?not_elem_of_cons;
  repeat split; try done; apply not_elem_of_nil.

Section BlockManagement.

Implicit Types (d prev pre post : list BlockData) (b : BlockData)
  (u : PartialBlockData).

(** The test [b.id === id0] fails on every block of a document that does
    not hold [id0]. *)
Lemma absent_no_match (id0 : string) d :
  id0 ∉ map id d → Forall (λ b, bool_decide (id b = id0) = false) d.
Proof.
  intros Hd. apply Forall_forall. intros b Hb.
  apply bool_decide_eq_false_2. intros <-.
  apply Hd. apply list_elem_of_fmap. by exists b.
Qed.

Lemma findIndex_absent (id0 : string) d :
  id0 ∉ map id d →
  findIndex (λ b, bool_decide (id b = id0)) d = (-1)%Z.
Proof.
  intros Hd. apply findIndex_from_absent. by apply absent_no_match.
Qed.

Lemma findIndex_first (id0 : string) pre b post :
  id0 ∉ map id pre → id b = id0 →
  findIndex (λ b, bool_decide (id b = id0)) (pre ++ b :: post)
  = Z.of_nat (length pre).
Proof.
  intros Hpre Hb. unfold findIndex.
  rewrite findIndex_from_first.
  - lia.
  - by apply absent_no_match.
  - by apply bool_decide_eq_true_2.
Qed.

(** The swap of [moveBlock] never reads or writes outside the array. *)
Lemma moveBlock_swap_in_range (id0 : string) (direction : Direction) prev :
  let index := findIndex (λ b, bool_decide (id b = id0)) prev in
  let swapIndex :=
    if is_up direction then (index - 1)%Z else (index + 1)%Z in
  index ≠ (-1)%Z →
  ¬ (direction = up ∧ index = 0%Z) →
  ¬ (direction = down ∧ index = (Z.of_nat (length prev) - 1)%Z) →
  (0 ≤ index < Z.of_nat (length prev))%Z ∧
  (0 ≤ swapIndex < Z.of_nat (length prev))%Z.
Proof.
  intros index swapIndex. subst swapIndex index. unfold findIndex.
  destruct (findIndex_from_cases (λ b, bool_decide (id b = id0)) 0 prev)
    as [[_ ->]|(pre & x & post & -> & _ & _ & ->)]; [done|].
  intros _ Hup Hdown. rewrite length_app in *. simpl in *.
  destruct direction; simpl; split; try lia.
  - destruct pre; simpl in *; [|lia]. destruct Hup. by split.
  - destruct post; simpl in *; [|lia]. destruct Hdown. split; [done|lia].
Qed.

(** *** [updateBlock] *)

Lemma updateBlock_length (id0 : string) u d :
  length (updateBlock id0 u d) = length d.
Proof. unfold updateBlock. apply length_map. Qed.

Lemma updateBlock_lookup (id0 : string) u d (i : nat) :
  updateBlock id0 u d !! i
  = (λ b, if bool_decide (id b = id0) then spread b u else b) <$> d !! i.
Proof. unfold updateBlock. apply list_lookup_fmap. Qed.

(** C1, as the specification states it, fails: an update of the first
    initial block that supplies an [id] and a [type] yields a block that
    carries the supplied [id] and [type], not those of the original. *)
Lemma updateBlock_overwrites_id_and_type :
  updateBlock "1"
    {| p_id := Some "9"; p_type := Some code;
       p_content := None; p_metadata := None |}
    INITIAL_BLOCKS !! 0%nat
  = Some {| id := "9"; type := code; content := "Welcome to MarkFlow";
            metadata := None |}
  ∧ ¬ (∀ (d : list BlockData) (id0 : string) (u : PartialBlockData)
         (i : nat) (b : BlockData),
         d !! i = Some b → id b = id0 →
         ∃ b', updateBlock id0 u d !! i = Some b' ∧
               type b' = type b ∧ id b' = id b).
Proof.
  split; [reflexivity|].
  intros Hclaim.
  destruct (Hclaim INITIAL_BLOCKS "1"
              {| p_id := Some "9"; p_type := Some code;
                 p_content := None; p_metadata := None |}
              0%nat
              {| id := "1"; type := h1; content := "Welcome to MarkFlow";
                 metadata := None |}
              eq_refl eq_refl) as (b' & Hb' & Htype & _).
  vm_compute in Hb'. injection Hb' as <-. discriminate Htype.
Qed.

Lemma Js_updateBlock_lookup
  (id0 : string) (u : Js.PartialBlockData) (d : list Js.BlockData) (i : nat) :
  Js.updateBlock id0 u d !! i
  = (λ b : Js.BlockData,
       if bool_decide (Js.id b = Some id0) then Js.spread b u else b)
      <$> d !! i.
Proof. unfold Js.updateBlock. apply list_lookup_fmap. Qed.

(** C1 (amended): for every document, every id present in it and every
    partial-fields argument, [updateBlock] keeps the length of the
    document, replaces the block that carries the id by the merge of the
    partial fields over it, and leaves every block with another id as it
    is.  Each property the partial fields carry, [id] and [type] included
    and also when its value is [undefined], replaces that of the block;
    each property they do not carry keeps the value of the original block.
    So [type] and [id] are those of the original block whenever the
    partial fields carry no [type] and no [id] property. *)
Theorem updateBlock_merges_carried_properties
  (d : list Js.BlockData) (id0 : string) (u : Js.PartialBlockData)
  (i : nat) (b : Js.BlockData) :
  d !! i = Some b → Js.id b = Some id0 →
  length (Js.updateBlock id0 u d) = length d ∧
  (∃ b' : Js.BlockData, Js.updateBlock id0 u d !! i = Some b' ∧
     Js.id b' = default (Js.id b) (Js.p_id u) ∧
     Js.type b' = default (Js.type b) (Js.p_type u) ∧
     Js.content b' = default (Js.content b) (Js.p_content u) ∧
     Js.metadata b' = default (Js.metadata b) (Js.p_metadata u) ∧
     (Js.p_id u = None → Js.id b' = Js.id b) ∧
     (Js.p_type u = None → Js.type b' = Js.type b)) ∧
  (∀ (j : nat) (c : Js.BlockData),
     d !! j = Some c → Js.id c ≠ Some id0 →
     Js.updateBlock id0 u d !! j = Some c).
Proof.
  intros Hi Hid. split; [apply length_map|]. split.
  - exists (Js.spread b u). rewrite Js_updateBlock_lookup, Hi. simpl.
    rewrite bool_decide_eq_true_2 by done.
    repeat split; try done.
    + by intros ->.
    + by intros ->.
  - intros j c Hj Hc. rewrite Js_updateBlock_lookup, Hj. simpl.
    by rewrite bool_decide_eq_false_2.
Qed.

Lemma updateBlock_merges_carried_properties_witness :
  length (Js.updateBlock "2"
            (Js.mkPartial None None (Some None) None)
            (map raw INITIAL_BLOCKS)) = length (map raw INITIAL_BLOCKS) ∧
  (∃ b' : Js.BlockData,
     Js.updateBlock "2"
       (Js.mkPartial None None (Some None) None)
       (map raw INITIAL_BLOCKS) !! 1%nat = Some b' ∧
         Js.id b' = Some "2" ∧ Js.type b' = Some paragraph ∧
         Js.content b' = None).
Proof.
  destruct (updateBlock_merges_carried_properties
              (map raw INITIAL_BLOCKS) "2"
              (Js.mkPartial None None (Some None) None)
              1%nat
              (raw {| id := "2"; type := paragraph;
                      content := "This is a low-code Markdown editor designed with the Gemini aesthetics. Drag blocks and export seamlessly.";
                      metadata := None |})
              eq_refl eq_refl)
    as (Hlen & (b' & Hb' & Hid & Hty & Hc & _) & _).
  split; [exact Hlen|].
  exists b'. repeat split; assumption.
Defined.

(** *** [addBlock] *)

(** Among the ten literals of [BlockType], ['list'] occurs in ['list-ul']
    and ['list-ol'] only. *)
Lemma includes_list_literal (k : BlockType) :
  includes (BlockType_literal k) "list"
  = match k with list_ul | list_ol => true | _ => false end.
Proof. by destruct k. Qed.

(** C3: for every document [d], every kind [k] (and every generated id),
    [addBlock] yields a document of length [length d + 1] whose first
    [length d] blocks are those of [d], unchanged and in order, followed
    by one new block of kind [k] with empty content, whose metadata is
    [{ items: [""] }] when [k] is [list-ul] or [list-ol] and the empty
    object otherwise. *)
Theorem addBlock_appends_default_block
  (uuid : string) (k : BlockType) (d : list BlockData) :
  length (addBlock uuid k d) = length d + 1 ∧
  take (length d) (addBlock uuid k d) = d ∧
  (∀ (i : nat) (b : BlockData),
     d !! i = Some b → addBlock uuid k d !! i = Some b) ∧
  ∃ nb, addBlock uuid k d = d ++ [nb] ∧
    id nb = uuid ∧ type nb = k ∧ content nb = EmptyString ∧
    metadata nb =
      match k with
      | list_ul | list_ol =>
          Some {| language := None; alt := None;
                  items := Some [EmptyString] |}
      | _ => Some {| language := None; alt := None; items := None |}
      end.
Proof.
  unfold addBlock. repeat split.
  - rewrite length_app. simpl. lia.
  - by rewrite take_app_length.
  - intros i b Hi. by apply lookup_app_l_Some.
  - eexists. split; [reflexivity|]. simpl. repeat split.
    rewrite includes_list_literal. by destruct k.
Qed.

(** *** Unknown ids *)

Lemma updateBlock_absent (id0 : string) u d :
  id0 ∉ map id d → updateBlock id0 u d = d.
Proof.
  intros Hd. apply absent_no_match in Hd. unfold updateBlock.
  induction Hd as [|b d Hb _ IH]; simpl; [done|].
  by rewrite Hb, IH.
Qed.

Lemma removeBlock_absent (id0 : string) d :
  id0 ∉ map id d → removeBlock id0 d = d.
Proof.
  intros Hd. apply absent_no_match in Hd. unfold removeBlock.
  induction Hd as [|b d Hb _ IH]; [done|].
  rewrite filter_cons, IH.
  apply bool_decide_eq_false in Hb. by rewrite decide_True.
Qed.

(** C4: for every document [d] and every id that no block of [d]
    carries, [updateBlock] (with any partial fields) and [removeBlock]
    both return [d]; both are total functions, so an unknown id is a
    no-op and never a failure. *)
Theorem unknown_id_is_noop
  (d : list BlockData) (id0 : string) (u : PartialBlockData) :
  id0 ∉ map id d →
  updateBlock id0 u d = d ∧ removeBlock id0 d = d.
Proof.
  intros Hd. split; [by apply updateBlock_absent | by apply removeBlock_absent].
Qed.

Lemma unknown_id_is_noop_witness :
  ("3" ∉ map id INITIAL_BLOCKS) ∧
  updateBlock "3"
    {| p_id := Some "4"; p_type := Some divider;
       p_content := Some "x"; p_metadata := Some None |}
    INITIAL_BLOCKS = INITIAL_BLOCKS ∧
  removeBlock "3" INITIAL_BLOCKS = INITIAL_BLOCKS.
Proof.
  assert (H : "3" ∉ map id INITIAL_BLOCKS) by not_among_ids.
  split; [exact H|].
  apply (unknown_id_is_noop INITIAL_BLOCKS "3"
           {| p_id := Some "4"; p_type := Some divider;
              p_content := Some "x"; p_metadata := Some None |} H).
Defined.

(** *** [moveBlock] *)

(** Writing two neighbouring cells with each other's content. *)
Lemma swap_neighbours_low_last pre (x y : BlockData) post :
  <[length pre := y]> (<[S (length pre) := x]> (pre ++ x :: y :: post))
  = pre ++ y :: x :: post.
Proof. induction pre as [|z pre IH]; simpl; [done | by rewrite IH]. Qed.

Lemma swap_neighbours_high_last pre (x y : BlockData) post :
  <[S (length pre) := x]> (<[length pre := y]> (pre ++ x :: y :: post))
  = pre ++ y :: x :: post.
Proof. induction pre as [|z pre IH]; simpl; [done | by rewrite IH]. Qed.

Lemma lookup_neighbours pre (x y : BlockData) post :
  (pre ++ x :: y :: post) !! length pre = Some x ∧
  (pre ++ x :: y :: post) !! S (length pre) = Some y.
Proof. induction pre as [|z pre IH]; simpl; [done | exact IH]. Qed.

Lemma moveBlock_absent (id0 : string) (direction : Direction) d :
  id0 ∉ map id d → moveBlock id0 direction d = d.
Proof.
  intros Hd. unfold moveBlock. by rewrite findIndex_absent.
Qed.

Lemma moveBlock_first_up (id0 : string) b rest :
  id b = id0 → moveBlock id0 up (b :: rest) = b :: rest.
Proof.
  intros Hb. unfold moveBlock.
  pose proof (findIndex_first id0 [] b rest) as Hix. simpl in Hix.
  rewrite Hix; [done | apply not_elem_of_nil | done].
Qed.

Lemma moveBlock_last_down (id0 : string) pre b :
  id0 ∉ map id pre → id b = id0 →
  moveBlock id0 down (pre ++ [b]) = pre ++ [b].
Proof.
  intros Hpre Hb. unfold moveBlock.
  rewrite findIndex_first by done.
  rewrite length_app. simpl.
  destruct (Z.eqb_spec (Z.of_nat (length pre)) (-1)); [done|].
  rewrite (proj2 (Z.eqb_eq _ _)) by lia. done.
Qed.

Lemma moveBlock_up_swaps (id0 : string) pre (a : BlockData) b post :
  id0 ∉ map id (pre ++ [a]) → id b = id0 →
  moveBlock id0 up (pre ++ a :: b :: post) = pre ++ b :: a :: post.
Proof.
  intros Hpre Hb. unfold moveBlock.
  replace (pre ++ a :: b :: post) with ((pre ++ [a]) ++ b :: post)
    by (by rewrite <- app_assoc).
  rewrite findIndex_first by done.
  rewrite <- app_assoc. simpl.
  rewrite length_app. simpl.
  destruct (Z.eqb_spec (Z.of_nat (length pre + 1)) (-1)); [lia|].
  destruct (Z.eqb_spec (Z.of_nat (length pre + 1)) 0); [lia|].
  replace (Z.to_nat (Z.of_nat (length pre + 1) - 1)) with (length pre) by lia.
  replace (Z.to_nat (Z.of_nat (length pre + 1))) with (S (length pre)) by lia.
  destruct (lookup_neighbours pre a b post) as [-> ->].
  apply swap_neighbours_low_last.
Qed.

Lemma moveBlock_down_swaps (id0 : string) pre b (c : BlockData) post :
  id0 ∉ map id pre → id b = id0 →
  moveBlock id0 down (pre ++ b :: c :: post) = pre ++ c :: b :: post.
Proof.
  intros Hpre Hb. unfold moveBlock.
  rewrite findIndex_first by done.
  rewrite length_app. simpl.
  destruct (Z.eqb_spec (Z.of_nat (length pre)) (-1)); [lia|].
  destruct (Z.eqb_spec (Z.of_nat (length pre))
              (Z.of_nat (length pre + S (S (length post))) - 1)); [lia|].
  replace (Z.to_nat (Z.of_nat (length pre) + 1)) with (S (length pre)) by lia.
  rewrite Nat2Z.id.
  destruct (lookup_neighbours pre b c post) as [-> ->].
  apply swap_neighbours_high_last.
Qed.

(** Every document either lacks [id0] or splits at the first block that
    carries it. *)
Lemma first_block_with_id (id0 : string) d :
  (id0 ∉ map id d) ∨
  (∃ pre b post, d = pre ++ b :: post ∧ (id0 ∉ map id pre) ∧ id b = id0).
Proof.
  induction d as [|c d IH]; [left; apply not_elem_of_nil|].
  destruct (decide (id c = id0)) as [Hc|Hc].
  - right. exists [], c, d. repeat split; [apply not_elem_of_nil | done].
  - destruct IH as [IH|(pre & b & post & -> & Hpre & Hb)].
    + left. simpl. rewrite not_elem_of_cons. by split.
    + right. exists (c :: pre), b, post. repeat split; [|done].
      simpl. rewrite not_elem_of_cons. by split.
Qed.

(** C5: [moveBlock] returns the document unchanged when no block carries
    the id, when the block that carries it is first and the direction is
    [up], and when that block is last and the direction is [down]; in
    every other case it exchanges that block with its neighbour in the
    given direction.  The block that carries the id is the first such
    block of the document, as [findIndex] selects it. *)
Theorem moveBlock_edges_and_swaps (id0 : string) (d : list BlockData) :
  (id0 ∉ map id d → ∀ direction, moveBlock id0 direction d = d) ∧
  (∀ b rest, d = b :: rest → id b = id0 → moveBlock id0 up d = d) ∧
  (∀ pre b, d = pre ++ [b] → id0 ∉ map id pre → id b = id0 →
     moveBlock id0 down d = d) ∧
  (∀ pre a b post, d = pre ++ a :: b :: post →
     id0 ∉ map id (pre ++ [a]) → id b = id0 →
     moveBlock id0 up d = pre ++ b :: a :: post) ∧
  (∀ pre b c post, d = pre ++ b :: c :: post →
     id0 ∉ map id pre → id b = id0 →
     moveBlock id0 down d = pre ++ c :: b :: post).
Proof.
  repeat split.
  - intros Hd direction. by apply moveBlock_absent.
  - intros b rest -> Hb. by apply moveBlock_first_up.
  - intros pre b -> Hpre Hb. by apply moveBlock_last_down.
  - intros pre a b post -> Hpre Hb. by apply moveBlock_up_swaps.
  - intros pre b c post -> Hpre Hb. by apply moveBlock_down_swaps.
Qed.

Lemma moveBlock_edges_and_swaps_witness :
  moveBlock "3" down INITIAL_BLOCKS = INITIAL_BLOCKS ∧
  moveBlock "1" up INITIAL_BLOCKS = INITIAL_BLOCKS ∧
  moveBlock "2" down INITIAL_BLOCKS = INITIAL_BLOCKS ∧
  moveBlock "2" up INITIAL_BLOCKS = reverse INITIAL_BLOCKS ∧
  moveBlock "1" down INITIAL_BLOCKS = reverse INITIAL_BLOCKS.
Proof.
  split; [|split; [|split; [|split]]].
  - apply (proj1 (moveBlock_edges_and_swaps "3" INITIAL_BLOCKS)).
    not_among_ids.
  - eapply (proj1 (proj2 (moveBlock_edges_and_swaps "1" INITIAL_BLOCKS)));
      reflexivity.
  - eapply (proj1 (proj2 (proj2
              (moveBlock_edges_and_swaps "2" INITIAL_BLOCKS)))
              [_] _ eq_refl); [not_among_ids | reflexivity].
  - eapply (proj1 (proj2 (proj2 (proj2
              (moveBlock_edges_and_swaps "2" INITIAL_BLOCKS))))
              [] _ _ [] eq_refl); [not_among_ids | reflexivity].
  - eapply (proj2 (proj2 (proj2 (proj2
              (moveBlock_edges_and_swaps "1" INITIAL_BLOCKS))))
              [] _ _ [] eq_refl); [not_among_ids | reflexivity].
Defined.

(** C6: when the first block of [d] does not carry the id, moving the
    id's block up and then down gives [d] back. *)
Theorem moveBlock_up_then_down (id0 : string) (d : list BlockData) :
  (∀ b, head d = Some b → id b ≠ id0) →
  moveBlock id0 down (moveBlock id0 up d) = d.
Proof.
  intros Hfirst.
  destruct (first_block_with_id id0 d)
    as [Habs|(pre & b & post & -> & Hpre & Hb)].
  - rewrite (moveBlock_absent id0 up d Habs). by apply moveBlock_absent.
  - destruct pre as [|a pre _] using rev_ind.
    + exfalso. by apply (Hfirst b).
    + rewrite <- app_assoc. simpl.
      rewrite moveBlock_up_swaps by done.
      apply moveBlock_down_swaps; [|done].
      intros Hin. apply Hpre. rewrite map_app.
      apply elem_of_app. by left.
Qed.

Lemma moveBlock_up_then_down_witness :
  moveBlock "2" down (moveBlock "2" up INITIAL_BLOCKS) = INITIAL_BLOCKS.
Proof.
  apply (moveBlock_up_then_down "2" INITIAL_BLOCKS).
  intros b Hb. injection Hb as <-. discriminate.
Defined.

End BlockManagement.

(** ** Facts about output generation *)

Section OutputGeneration.

Implicit Types (d : list BlockData) (b : BlockData).

Lemma generateMarkdownString_cons_cons b (c : BlockData) d :
  generateMarkdownString (b :: c :: d)
  = render b +:+ nl +:+ nl +:+ generateMarkdownString (c :: d).
Proof.
  unfold generateMarkdownString. simpl map.
  by rewrite join_cons_cons, append_assoc.
Qed.

(** C2: [generateMarkdownString] renders each block by its kind and
    joins the renderings, in document order, with two newline characters
    between consecutive blocks: the empty document gives the empty
    string, a single block gives its rendering, and a longer document
    gives the rendering of its first block, two newlines, and the export
    of the rest.  Headings, paragraphs, quotes and dividers render as in
    the table of the specification, and the document [h1 "T"; paragraph
    "body"] exports as "# T", two newlines, "body". *)
Theorem generateMarkdownString_joins_renderings :
  generateMarkdownString [] = EmptyString ∧
  (∀ b, generateMarkdownString [b] = render b) ∧
  (∀ b c d,
     generateMarkdownString (b :: c :: d)
     = render b +:+ nl +:+ nl +:+ generateMarkdownString (c :: d)) ∧
  (∀ i c m,
     render (mkBlock i h1 c m) = "# " +:+ c ∧
     render (mkBlock i h2 c m) = "## " +:+ c ∧
     render (mkBlock i h3 c m) = "### " +:+ c ∧
     render (mkBlock i paragraph c m) = c ∧
     render (mkBlock i blockquote c m) = "> " +:+ c ∧
     render (mkBlock i divider c m) = "---") ∧
  (∀ i j m n,
     generateMarkdownString
       [mkBlock i h1 "T" m; mkBlock j paragraph "body" n]
     = "# T" +:+ nl +:+ nl +:+ "body").
Proof.
  split; [reflexivity|]. split; [reflexivity|].
  split; [apply generateMarkdownString_cons_cons|].
  split; [|reflexivity].
  intros i c m. by repeat split.
Qed.

(** C7: a code block exports as three backticks, the language tag (the
    empty string when the block has no metadata or no language), a
    newline, the content, a newline and three backticks; the block with
    content "print(1)" and language "py" exports as "```py", newline,
    "print(1)", newline, "```". *)
Theorem code_block_is_fenced :
  (∀ b, type b = code →
     generateMarkdownString [b]
     = "```" +:+ default EmptyString (metadata b ≫= language) +:+ nl
         +:+ content b +:+ nl +:+ "```") ∧
  (∀ i a its,
     generateMarkdownString
       [mkBlock i code "print(1)" (Some (mkMetadata (Some "py") a its))]
     = "```py" +:+ nl +:+ "print(1)" +:+ nl +:+ "```").
Proof.
  split; [|reflexivity].
  intros b Hb. unfold generateMarkdownString. simpl map.
  rewrite join_singleton. unfold render. rewrite Hb.
  by rewrite or_string_empty.
Qed.

Lemma code_block_is_fenced_witness :
  generateMarkdownString
    [mkBlock "7" code "let x = 1;" (Some (mkMetadata None None None))]
  = "```" +:+ nl +:+ "let x = 1;" +:+ nl +:+ "```".
Proof.
  exact (proj1 code_block_is_fenced
           (mkBlock "7" code "let x = 1;"
              (Some (mkMetadata None None None)))
           eq_refl).
Defined.

(** C8, as the specification states it, fails: an image block whose
    [alt] is set to the empty string exports with the alt text "image",
    not with the alt text that is set. *)
Lemma image_empty_alt_exports_default :
  generateMarkdownString
    [mkBlock "1" image "cat.png"
       (Some (mkMetadata None (Some EmptyString) None))]
  = "![image](cat.png)"
  ∧ ¬ (∀ b a, type b = image → metadata b ≫= alt = Some a →
         generateMarkdownString [b]
         = "![" +:+ a +:+ "](" +:+ content b +:+ ")").
Proof.
  split; [reflexivity|].
  intros Hclaim.
  specialize (Hclaim
    (mkBlock "1" image "cat.png"
       (Some (mkMetadata None (Some EmptyString) None)))
    EmptyString eq_refl eq_refl).
  vm_compute in Hclaim. discriminate Hclaim.
Qed.

(** C8 (amended): an image block exports as "![" + alt + "](" + content
    + ")", where alt is the block's [alt] metadata when it is set and is
    not the empty string, and the literal "image" when it is unset or is
    the empty string. *)
Theorem image_block_alt_or_default (b : BlockData) :
  type b = image →
  (∀ a, metadata b ≫= alt = Some a → a ≠ EmptyString →
     generateMarkdownString [b]
     = "![" +:+ a +:+ "](" +:+ content b +:+ ")") ∧
  (metadata b ≫= alt = None ∨ metadata b ≫= alt = Some EmptyString →
     generateMarkdownString [b]
     = "![" +:+ "image" +:+ "](" +:+ content b +:+ ")").
Proof.
  intros Hb. unfold generateMarkdownString. simpl map.
  rewrite join_singleton. unfold render, block_alt. rewrite Hb.
  split.
  - intros a -> Ha. by rewrite or_string_nonempty.
  - by intros [-> | ->].
Qed.

Lemma image_block_alt_or_default_witness :
  generateMarkdownString
    [mkBlock "5" image "cat.png"
       (Some (mkMetadata None (Some "A cat") None))]
  = "![A cat](cat.png)"
  ∧ generateMarkdownString [mkBlock "6" image "dog.png" None]
    = "![image](dog.png)".
Proof.
  split.
  - apply (proj1 (image_block_alt_or_default
                    (mkBlock "5" image "cat.png"
                       (Some (mkMetadata None (Some "A cat") None)))
                    eq_refl) "A cat" eq_refl).
    discriminate.
  - apply (proj2 (image_block_alt_or_default
                    (mkBlock "6" image "dog.png" None) eq_refl)).
    left. reflexivity.
Defined.


Lemma render_ignores_id b (c : BlockData) :
  same_but_id b c → render b = render c.
Proof.
  intros (Htype & Hcontent & Hmeta).
  unfold render, block_language, block_alt, block_items.
  by rewrite Htype, Hcontent, Hmeta.
Qed.

(** C10: two documents of the same length whose blocks agree, position
    by position, on [type], [content] and [metadata] export to the same
    string, whatever their ids are. *)
Theorem generateMarkdownString_ignores_ids (d1 d2 : list BlockData) :
  Forall2 same_but_id d1 d2 →
  generateMarkdownString d1 = generateMarkdownString d2.
Proof.
  intros Hd. unfold generateMarkdownString. f_equal.
  induction Hd as [|b c d1 d2 Hbc _ IH]; simpl; [done|].
  by rewrite (render_ignores_id b c Hbc), IH.
Qed.

Lemma generateMarkdownString_ignores_ids_witness :
  generateMarkdownString INITIAL_BLOCKS
  = generateMarkdownString
      [ mkBlock "b3c1" h1 "Welcome to MarkFlow" None;
        mkBlock "0f9e" paragraph
          "This is a low-code Markdown editor designed with the Gemini aesthetics. Drag blocks and export seamlessly."
          None ].
Proof.
  apply (generateMarkdownString_ignores_ids INITIAL_BLOCKS).
  repeat constructor.
Defined.

End OutputGeneration.

(** ** Further facts: removal, uniqueness of ids and how operations compose *)

Section Composition.

Implicit Types (d prev pre post : list BlockData) (b : BlockData)
  (u : PartialBlockData).

(** *** [removeBlock] *)

Lemma removeBlock_app (id0 : string) pre post :
  removeBlock id0 (pre ++ post) = removeBlock id0 pre ++ removeBlock id0 post.
Proof. unfold removeBlock. apply filter_app. Qed.

Lemma removeBlock_cons_match (id0 : string) b d :
  id b = id0 → removeBlock id0 (b :: d) = removeBlock id0 d.
Proof.
  intros Hb. unfold removeBlock. rewrite filter_cons.
  rewrite decide_False; [done|]. by intros Hne.
Qed.

Lemma removeBlock_cons_other (id0 : string) b d :
  id b ≠ id0 → removeBlock id0 (b :: d) = b :: removeBlock id0 d.
Proof.
  intros Hb. unfold removeBlock. rewrite filter_cons.
  by rewrite decide_True.
Qed.

(** Every part of the document that is free of the id is a part of the
    result of [removeBlock]. *)
Lemma removeBlock_greatest (id0 : string) (l d : list BlockData) :
  l `sublist_of` d → Forall (λ b, id b ≠ id0) l →
  l `sublist_of` removeBlock id0 d.
Proof.
  intros Hsub. induction Hsub as [|x l d _ IH|x l d _ IH]; intros Hl.
  - apply sublist_nil.
  - apply Forall_cons in Hl as [Hx Hl].
    rewrite removeBlock_cons_other by done.
    apply sublist_skip. by apply IH.
  - destruct (decide (id x = id0)) as [Hx|Hx].
    + rewrite removeBlock_cons_match by done. by apply IH.
    + rewrite removeBlock_cons_other by done.
      apply sublist_cons. by apply IH.
Qed.

(** X1: [removeBlock] keeps exactly the blocks whose id differs from the
    given one, each as often as it occurs and in the original order: the
    result is a sublist of the document in which no block carries the id,
    and every sublist of the document in which no block carries the id is
    a sublist of the result.  So a block is in the result exactly when it
    is in the document under another id, and the result is never longer
    than the document. *)
Theorem removeBlock_keeps_the_others (id0 : string) (d : list BlockData) :
  (removeBlock id0 d `sublist_of` d) ∧
  (id0 ∉ map id (removeBlock id0 d)) ∧
  (∀ l : list BlockData,
     l `sublist_of` d → Forall (λ b, id b ≠ id0) l →
     l `sublist_of` removeBlock id0 d) ∧
  (∀ b, b ∈ removeBlock id0 d ↔ b ∈ d ∧ id b ≠ id0) ∧
  (length (removeBlock id0 d) ≤ length d)%nat.
Proof.
  split; [|split; [|split; [|split]]].
  - unfold removeBlock. apply sublist_filter.
  - unfold removeBlock. intros Hin.
    apply list_elem_of_fmap in Hin as (b & Hid & Hb).
    apply list_elem_of_filter in Hb as [Hne _]. by apply Hne.
  - intros l. apply removeBlock_greatest.
  - unfold removeBlock. intros b. rewrite list_elem_of_filter. tauto.
  - unfold removeBlock. apply length_filter.
Qed.

Lemma removeBlock_keeps_the_others_witness :
  INITIAL_BLOCKS ++ INITIAL_BLOCKS
  `sublist_of`
  removeBlock "3"
    (INITIAL_BLOCKS ++ [mkBlock "3" divider EmptyString None]
       ++ INITIAL_BLOCKS).
Proof.
  apply (proj1 (proj2 (proj2 (removeBlock_keeps_the_others "3"
           (INITIAL_BLOCKS ++ [mkBlock "3" divider EmptyString None]
              ++ INITIAL_BLOCKS))))).
  - apply sublist_app; [done|]. apply sublist_inserts_l. done.
  - repeat constructor; discriminate.
Defined.

(** X2: when exactly one block of the document carries the id,
    [removeBlock] deletes that block and nothing else: the blocks before
    and after it are kept as they are and the length drops by one. *)
Theorem removeBlock_deletes_the_block
  (id0 : string) (pre post : list BlockData) (b : BlockData) :
  id b = id0 → id0 ∉ map id pre → id0 ∉ map id post →
  removeBlock id0 (pre ++ b :: post) = pre ++ post ∧
  (length (removeBlock id0 (pre ++ b :: post)) + 1
   = length (pre ++ b :: post))%nat.
Proof.
  intros Hb Hpre Hpost.
  assert (Heq : removeBlock id0 (pre ++ b :: post) = pre ++ post).
  { rewrite removeBlock_app, removeBlock_cons_match by done.
    by rewrite !removeBlock_absent. }
  split; [done|]. rewrite Heq, !length_app. simpl. lia.
Qed.

Lemma removeBlock_deletes_the_block_witness :
  removeBlock "1" INITIAL_BLOCKS = drop 1 INITIAL_BLOCKS ∧
  (length (removeBlock "1" INITIAL_BLOCKS) + 1
   = length INITIAL_BLOCKS)%nat.
Proof.
  apply (removeBlock_deletes_the_block "1" [] (drop 1 INITIAL_BLOCKS)
           {| id := "1"; type := h1; content := "Welcome to MarkFlow";
              metadata := None |} eq_refl);
    not_among_ids.
Defined.

(** X3: adding a block under an id the document does not hold yet and
    then removing that id gives the document back. *)
Theorem addBlock_then_removeBlock
  (uuid : string) (k : BlockType) (d : list BlockData) :
  uuid ∉ map id d → removeBlock uuid (addBlock uuid k d) = d.
Proof.
  intros Hd. unfold addBlock.
  rewrite removeBlock_app, removeBlock_cons_match by done.
  rewrite removeBlock_absent by done. apply app_nil_r.
Qed.

Lemma addBlock_then_removeBlock_witness :
  removeBlock "3" (addBlock "3" list_ul INITIAL_BLOCKS) = INITIAL_BLOCKS.
Proof.
  apply (addBlock_then_removeBlock "3" list_ul INITIAL_BLOCKS).
  not_among_ids.
Defined.

(** *** [moveBlock] as a rearrangement *)

(** A move either returns the document or exchanges two neighbours, one
    of which carries the id. *)
Lemma moveBlock_cases (id0 : string) (direction : Direction) d :
  moveBlock id0 direction d = d ∨
  ∃ pre x y post,
    d = pre ++ x :: y :: post ∧
    moveBlock id0 direction d = pre ++ y :: x :: post ∧
    (id x = id0 ∨ id y = id0).
Proof.
  destruct (first_block_with_id id0 d)
    as [Habs|(pre & b & post & -> & Hpre & Hb)].
  { left. by apply moveBlock_absent. }
  destruct direction.
  - destruct pre as [|a pre _] using rev_ind.
    + left. by apply moveBlock_first_up.
    + right. exists pre, a, b, post. rewrite <- app_assoc. simpl.
      split; [done|]. split; [by apply moveBlock_up_swaps | by right].
  - destruct post as [|c post].
    + left. by apply moveBlock_last_down.
    + right. exists pre, b, c, post.
      split; [done|]. split; [by apply moveBlock_down_swaps | by left].
Qed.

Lemma moveBlock_Permutation (id0 : string) (direction : Direction) d :
  moveBlock id0 direction d ≡ₚ d.
Proof.
  destruct (moveBlock_cases id0 direction d)
    as [->|(pre & x & y & post & -> & -> & _)]; [done|].
  apply Permutation_app; [done | apply perm_swap].
Qed.

(** X4: [moveBlock] only rearranges: the result is a permutation of the
    document (no block is lost, duplicated or changed) and has its
    length. *)
Theorem moveBlock_permutes
  (id0 : string) (direction : Direction) (d : list BlockData) :
  moveBlock id0 direction d ≡ₚ d ∧
  length (moveBlock id0 direction d) = length d.
Proof.
  pose proof (moveBlock_Permutation id0 direction d) as Hperm.
  split; [done | by rewrite Hperm].
Qed.

(** X5: in a document with pairwise distinct ids, moving a block that is
    not the last one down and then up gives the document back. *)
Theorem moveBlock_down_then_up (id0 : string) (d : list BlockData) :
  NoDup (map id d) →
  (∀ b, last d = Some b → id b ≠ id0) →
  moveBlock id0 up (moveBlock id0 down d) = d.
Proof.
  intros Hnd Hlast.
  destruct (first_block_with_id id0 d)
    as [Habs|(pre & b & post & -> & Hpre & Hb)].
  { rewrite (moveBlock_absent id0 down d Habs). by apply moveBlock_absent. }
  destruct post as [|c post].
  { exfalso. apply (Hlast b); [apply last_snoc | done]. }
  rewrite moveBlock_down_swaps by done.
  apply moveBlock_up_swaps; [|done].
  rewrite map_app, NoDup_app in Hnd. destruct Hnd as (_ & _ & Hnd).
  simpl in Hnd. rewrite NoDup_cons, not_elem_of_cons in Hnd.
  destruct Hnd as [[Hbc _] _].
  rewrite map_app, elem_of_app. simpl.
  intros [Hin|Hin]; [by apply Hpre|].
  apply list_elem_of_singleton in Hin. congruence.
Qed.

Lemma moveBlock_down_then_up_witness :
  moveBlock "1" up (moveBlock "1" down INITIAL_BLOCKS) = INITIAL_BLOCKS.
Proof.
  apply (moveBlock_down_then_up "1" INITIAL_BLOCKS).
  - simpl. rewrite !NoDup_cons. repeat split; try not_among_ids.
    apply NoDup_nil_2.
  - intros b Hb. injection Hb as <-. discriminate.
Defined.

(** X6: pressing "up" on a block as many times as there are blocks before
    it, or more often, brings it to the front; the other blocks keep their
    relative order. *)
Theorem moveBlock_up_repeated
  (id0 : string) (pre post : list BlockData) (b : BlockData) (n : nat) :
  id b = id0 → id0 ∉ map id pre → (length pre ≤ n)%nat →
  Nat.iter n (moveBlock id0 up) (pre ++ b :: post) = b :: pre ++ post.
Proof.
  intros Hb Hpre Hn.
  assert (Hexact : ∀ pre post, id0 ∉ map id pre →
            Nat.iter (length pre) (moveBlock id0 up) (pre ++ b :: post)
            = b :: pre ++ post).
  { clear pre post Hpre Hn.
    induction pre as [|a pre IH] using rev_ind; intros post Hpre; [done|].
    rewrite length_app, Nat.add_comm. simpl length.
    rewrite Nat.iter_succ_r, <- app_assoc. simpl.
    rewrite moveBlock_up_swaps by done.
    rewrite IH; [by rewrite <- app_assoc|].
    intros Hin. apply Hpre. rewrite map_app, elem_of_app. by left. }
  replace n with ((n - length pre) + length pre)%nat by lia.
  rewrite Nat.iter_add, Hexact by done.
  induction (n - length pre)%nat as [|m IH]; [done|].
  simpl. rewrite IH. by apply moveBlock_first_up.
Qed.

Lemma moveBlock_up_repeated_witness :
  Nat.iter 3 (moveBlock "2" up) INITIAL_BLOCKS = reverse INITIAL_BLOCKS.
Proof.
  apply (moveBlock_up_repeated "2" (take 1 INITIAL_BLOCKS) []
           {| id := "2"; type := paragraph;
              content := "This is a low-code Markdown editor designed with the Gemini aesthetics. Drag blocks and export seamlessly.";
              metadata := None |} 3 eq_refl).
  - not_among_ids.
  - simpl. lia.
Defined.

(** X7: pressing "down" on the only block that carries an id as many
    times as there are blocks after it, or more often, brings it to the
    end; the other blocks keep their relative order. *)
Theorem moveBlock_down_repeated
  (id0 : string) (pre post : list BlockData) (b : BlockData) (n : nat) :
  id b = id0 → id0 ∉ map id pre → id0 ∉ map id post →
  (length post ≤ n)%nat →
  Nat.iter n (moveBlock id0 down) (pre ++ b :: post) = pre ++ post ++ [b].
Proof.
  intros Hb Hpre Hpost Hn.
  assert (Hexact : ∀ post pre, id0 ∉ map id pre → id0 ∉ map id post →
            Nat.iter (length post) (moveBlock id0 down) (pre ++ b :: post)
            = pre ++ post ++ [b]).
  { clear pre post Hpre Hpost Hn.
    induction post as [|c post IH]; intros pre Hpre Hpost; [done|].
    simpl length. rewrite Nat.iter_succ_r.
    rewrite moveBlock_down_swaps by done.
    simpl in Hpost. rewrite not_elem_of_cons in Hpost.
    destruct Hpost as [Hc Hpost].
    replace (pre ++ c :: b :: post) with ((pre ++ [c]) ++ b :: post)
      by (by rewrite <- app_assoc).
    rewrite IH; [by rewrite <- app_assoc | | done].
    rewrite map_app, elem_of_app. simpl.
    intros [Hin|Hin]; [by apply Hpre|].
    apply list_elem_of_singleton in Hin. congruence. }
  replace n with ((n - length post) + length post)%nat by lia.
  rewrite Nat.iter_add, Hexact by done.
  induction (n - length post)%nat as [|m IH]; [done|].
  simpl. rewrite IH.
  replace (pre ++ post ++ [b]) with ((pre ++ post) ++ [b])
    by (by rewrite <- app_assoc).
  apply moveBlock_last_down; [|done].
  rewrite map_app, elem_of_app. tauto.
Qed.

Lemma moveBlock_down_repeated_witness :
  Nat.iter 1 (moveBlock "1" down) INITIAL_BLOCKS = reverse INITIAL_BLOCKS.
Proof.
  apply (moveBlock_down_repeated "1" [] (drop 1 INITIAL_BLOCKS)
           {| id := "1"; type := h1; content := "Welcome to MarkFlow";
              metadata := None |} 1 eq_refl).
  - not_among_ids.
  - not_among_ids.
  - simpl. lia.
Defined.

(** X8: deleting a block gives the same document whether or not the block
    was moved first. *)
Theorem moveBlock_then_removeBlock
  (id0 : string) (direction : Direction) (d : list BlockData) :
  removeBlock id0 (moveBlock id0 direction d) = removeBlock id0 d.
Proof.
  destruct (moveBlock_cases id0 direction d)
    as [->|(pre & x & y & post & -> & -> & Hxy)]; [done|].
  rewrite !removeBlock_app. f_equal.
  destruct (decide (id x = id0)) as [Hx|Hx];
    destruct (decide (id y = id0)) as [Hy|Hy];
    try (by destruct Hxy);
    repeat first [ rewrite removeBlock_cons_match by done
                 | rewrite removeBlock_cons_other by done ];
    done.
Qed.

(** *** [updateBlock] composed with itself *)

Lemma spread_twice b u : spread (spread b u) u = spread b u.
Proof. destruct u as [[?|] [?|] [?|] [?|]]; reflexivity. Qed.

Lemma spread_keeps_id b u : p_id u = None → id (spread b u) = id b.
Proof. intros Hu. unfold spread. simpl. by rewrite Hu. Qed.

(** X9: applying the same update twice is the same as applying it once,
    whatever the partial fields are (also when they supply a new id). *)
Theorem updateBlock_idempotent
  (id0 : string) (u : PartialBlockData) (d : list BlockData) :
  updateBlock id0 u (updateBlock id0 u d) = updateBlock id0 u d.
Proof.
  unfold updateBlock. rewrite map_map. apply map_ext. intros b.
  destruct (bool_decide (id b = id0)) eqn:Hb; [|by rewrite Hb].
  destruct (bool_decide (id (spread b u) = id0)); [apply spread_twice | done].
Qed.

(** X10: updates of two different ids that supply no new id can be applied
    in either order. *)
Theorem updateBlock_commutes
  (id1 id2 : string) (u1 u2 : PartialBlockData) (d : list BlockData) :
  id1 ≠ id2 → p_id u1 = None → p_id u2 = None →
  updateBlock id1 u1 (updateBlock id2 u2 d)
  = updateBlock id2 u2 (updateBlock id1 u1 d).
Proof.
  intros Hne Hu1 Hu2. unfold updateBlock. rewrite !map_map.
  apply map_ext. intros b.
  destruct (bool_decide (id b = id1)) eqn:H1;
    destruct (bool_decide (id b = id2)) eqn:H2;
    rewrite ?spread_keeps_id by done; rewrite ?H1, ?H2; try done.
  apply bool_decide_eq_true in H1, H2. congruence.
Qed.

Lemma updateBlock_commutes_witness :
  updateBlock "1" (mkPartial None None (Some "Title") None)
    (updateBlock "2" (mkPartial None (Some blockquote) None None)
       INITIAL_BLOCKS)
  = updateBlock "2" (mkPartial None (Some blockquote) None None)
      (updateBlock "1" (mkPartial None None (Some "Title") None)
         INITIAL_BLOCKS).
Proof.
  apply (updateBlock_commutes "1" "2"
           (mkPartial None None (Some "Title") None)
           (mkPartial None (Some blockquote) None None)
           INITIAL_BLOCKS);
    [discriminate | reflexivity | reflexivity].
Defined.

(** *** Uniqueness of ids *)

Lemma Js_updateBlock_ids
  (id0 : string) (u : Js.PartialBlockData) (r : list Js.BlockData) :
  Js.p_id u = None ∨ Js.p_id u = Some (Some id0) →
  map Js.id (Js.updateBlock id0 u r) = map Js.id r.
Proof.
  intros Hu. unfold Js.updateBlock. rewrite map_map. apply map_ext.
  intros c. case_bool_decide as Hc; [|done].
  unfold Js.spread. simpl. by destruct Hu as [-> | ->].
Qed.

Lemma NoDup_fmap_remove (id0 : string) d :
  NoDup (map id d) → NoDup (map id (removeBlock id0 d)).
Proof.
  intros Hnd. apply (sublist_NoDup _ (map id d) Hnd).
  apply fmap_sublist. unfold removeBlock. apply sublist_filter.
Qed.

(** X11: a document whose ids are pairwise distinct keeps this property
    under every operation: [addBlock] with an id the document does not
    hold, [removeBlock], [moveBlock], and [updateBlock] with partial
    fields that carry no [id] property (or carry the id the block already
    has), which leaves the sequence of ids as it is, whatever the other
    properties of the partial fields are. *)
Theorem ids_stay_unique (d : list BlockData) :
  NoDup (map id d) →
  (∀ uuid k, uuid ∉ map id d → NoDup (map id (addBlock uuid k d))) ∧
  (∀ id0 (u : Js.PartialBlockData),
     Js.p_id u = None ∨ Js.p_id u = Some (Some id0) →
     map Js.id (Js.updateBlock id0 u (map raw d)) = map Some (map id d) ∧
     NoDup (map Js.id (Js.updateBlock id0 u (map raw d)))) ∧
  (∀ id0, NoDup (map id (removeBlock id0 d))) ∧
  (∀ id0 direction, NoDup (map id (moveBlock id0 direction d))).
Proof.
  intros Hnd. split; [|split; [|split]].
  - intros uuid k Hfresh. unfold addBlock. rewrite map_app. simpl.
    apply NoDup_app. split; [done|]. split.
    + intros x Hx Hin. apply list_elem_of_singleton in Hin. by subst.
    + apply NoDup_singleton.
  - intros id0 u Hu. rewrite Js_updateBlock_ids, raw_ids by done.
    split; [done|]. by apply (NoDup_fmap_2 Some).
  - intros id0. apply (NoDup_fmap_remove id0 d Hnd).
  - intros id0 direction.
    by rewrite (moveBlock_Permutation id0 direction d).
Qed.

Lemma ids_stay_unique_witness :
  NoDup (map id (addBlock "3" code INITIAL_BLOCKS)) ∧
  NoDup (map Js.id
           (Js.updateBlock "1"
              (Js.mkPartial None (Some None) (Some (Some "Title")) None)
              (map raw INITIAL_BLOCKS))) ∧
  NoDup (map id (removeBlock "1" INITIAL_BLOCKS)) ∧
  NoDup (map id (moveBlock "2" up INITIAL_BLOCKS)).
Proof.
  assert (Hnd : NoDup (map id INITIAL_BLOCKS)).
  { simpl. rewrite !NoDup_cons. repeat split; try not_among_ids.
    apply NoDup_nil_2. }
  destruct (ids_stay_unique INITIAL_BLOCKS Hnd) as (Hadd & Hup & Hrm & Hmv).
  split; [|split; [|split]].
  - apply Hadd. not_among_ids.
  - apply (Hup "1"). by left.
  - apply Hrm.
  - apply Hmv.
Defined.

(** *** [moveBlock] changes the document away from the edges *)

Lemma moveBlock_up_fixed_iff (id0 : string) pre b post :
  id b = id0 → id0 ∉ map id pre →
  moveBlock id0 up (pre ++ b :: post) = pre ++ b :: post ↔ pre = [].
Proof.
  intros Hb Hpre. split.
  - destruct pre as [|a pre _] using rev_ind; [done|].
    rewrite <- app_assoc. simpl.
    rewrite moveBlock_up_swaps by done.
    intros Heq. apply app_inv_head in Heq. injection Heq as Hba _.
    exfalso. apply Hpre. rewrite map_app, elem_of_app. right.
    simpl. apply list_elem_of_singleton. congruence.
  - intros ->. by apply moveBlock_first_up.
Qed.

Lemma moveBlock_down_fixed_iff (id0 : string) pre b post :
  id b = id0 → id0 ∉ map id pre → id0 ∉ map id post →
  moveBlock id0 down (pre ++ b :: post) = pre ++ b :: post ↔ post = [].
Proof.
  intros Hb Hpre Hpost. split.
  - destruct post as [|c post]; [done|].
    rewrite moveBlock_down_swaps by done.
    intros Heq. apply app_inv_head in Heq. injection Heq as Hcb _.
    exfalso. apply Hpost. simpl. rewrite elem_of_cons. left. congruence.
  - intros ->. by apply moveBlock_last_down.
Qed.

(** A block of a document with pairwise distinct ids splits the document
    into the blocks before and after it, none of which carries its id. *)
Lemma split_at_unique d (i : nat) b :
  NoDup (map id d) → d !! i = Some b →
  ∃ pre post, d = pre ++ b :: post ∧ length pre = i ∧
    (id b ∉ map id pre) ∧ (id b ∉ map id post).
Proof.
  intros Hnd Hi. exists (take i d), (drop (S i) d).
  pose proof (take_drop_middle d i b Hi) as Hsplit.
  split; [done|]. split.
  { apply length_take_le. apply lookup_lt_Some in Hi. lia. }
  rewrite <- Hsplit, map_app in Hnd. simpl in Hnd.
  apply NoDup_app in Hnd as (_ & Hdisj & Hnd).
  apply NoDup_cons in Hnd as [Hpost _].
  split; [|done].
  intros Hin. apply (Hdisj _ Hin). apply list_elem_of_here.
Qed.

(** X15: in a document with pairwise distinct ids, a move returns the
    document unchanged only at the edges: "up" on the block at position
    [i] changes nothing exactly when [i = 0], and "down" exactly when the
    block is the last one. *)
Theorem moveBlock_fixed_only_at_edges
  (d : list BlockData) (i : nat) (b : BlockData) :
  NoDup (map id d) → d !! i = Some b →
  (moveBlock (id b) up d = d ↔ i = 0%nat) ∧
  (moveBlock (id b) down d = d ↔ S i = length d).
Proof.
  intros Hnd Hi.
  destruct (split_at_unique d i b Hnd Hi)
    as (pre & post & -> & Hlen & Hpre & Hpost).
  split.
  - rewrite moveBlock_up_fixed_iff by done.
    rewrite <- Hlen. split; [by intros -> | by destruct pre].
  - rewrite moveBlock_down_fixed_iff by done.
    rewrite length_app. simpl. rewrite Hlen. split.
    + intros ->. simpl. lia.
    + intros Hl. destruct post; [done | simpl in Hl; lia].
Qed.

Lemma moveBlock_fixed_only_at_edges_witness :
  (moveBlock "2" up INITIAL_BLOCKS = INITIAL_BLOCKS ↔ 1%nat = 0%nat) ∧
  (moveBlock "2" down INITIAL_BLOCKS = INITIAL_BLOCKS
   ↔ 2%nat = length INITIAL_BLOCKS).
Proof.
  apply (moveBlock_fixed_only_at_edges INITIAL_BLOCKS 1
           {| id := "2"; type := paragraph;
              content := "This is a low-code Markdown editor designed with the Gemini aesthetics. Drag blocks and export seamlessly.";
              metadata := None |}).
  - simpl. rewrite !NoDup_cons. repeat split; try not_among_ids.
    apply NoDup_nil_2.
  - reflexivity.
Defined.

(** *** [removeBlock] composed with edits and with itself *)

(** X17: editing a block and then deleting it gives the same document as
    deleting it at once, as long as the partial fields carry no [id]
    property; an edit of another id and a deletion can be done in either
    order.  Both hold whatever the other properties of the partial fields
    are, and also on documents that hold [undefined] already. *)
Theorem updateBlock_then_removeBlock
  (id0 : string) (u : Js.PartialBlockData) (d : list Js.BlockData) :
  Js.p_id u = None →
  Js.removeBlock id0 (Js.updateBlock id0 u d) = Js.removeBlock id0 d ∧
  (∀ id1, id1 ≠ id0 →
     Js.removeBlock id1 (Js.updateBlock id0 u d)
     = Js.updateBlock id0 u (Js.removeBlock id1 d)).
Proof.
  intros Hu. split; [|intros id1 Hne]; unfold Js.updateBlock.
  - induction d as [|c d IH]; [done|]. simpl.
    case_bool_decide as Hc.
    + rewrite !Js_removeBlock_cons_match; [done | done |].
      by rewrite Js_spread_keeps_id.
    + by rewrite !Js_removeBlock_cons_other, IH.
  - induction d as [|c d IH]; [done|]. simpl.
    destruct (decide (Js.id c = Some id1)) as [Hc1|Hc1].
    + rewrite (Js_removeBlock_cons_match id1 c) by done.
      rewrite Js_removeBlock_cons_match; [done|].
      case_bool_decide; [by rewrite Js_spread_keeps_id | done].
    + rewrite (Js_removeBlock_cons_other id1 c) by done. simpl.
      rewrite Js_removeBlock_cons_other, IH; [done|].
      case_bool_decide; [by rewrite Js_spread_keeps_id | done].
Qed.

Lemma updateBlock_then_removeBlock_witness :
  Js.removeBlock "1"
    (Js.updateBlock "1"
       (Js.mkPartial None (Some (Some h2)) (Some None) None)
       (map raw INITIAL_BLOCKS))
  = map raw (removeBlock "1" INITIAL_BLOCKS).
Proof.
  rewrite <- removeBlock_raw.
  apply (proj1 (updateBlock_then_removeBlock "1"
                  (Js.mkPartial None (Some (Some h2)) (Some None) None)
                  (map raw INITIAL_BLOCKS) eq_refl)).
Defined.

(** X18: deleting the same id twice is the same as deleting it once, and
    deletions of two ids can be done in either order. *)
Theorem removeBlock_twice (id0 id1 : string) (d : list BlockData) :
  removeBlock id0 (removeBlock id0 d) = removeBlock id0 d ∧
  removeBlock id0 (removeBlock id1 d) = removeBlock id1 (removeBlock id0 d).
Proof.
  split.
  - apply removeBlock_absent.
    intros Hin. apply list_elem_of_fmap in Hin as (b & Hid & Hb).
    unfold removeBlock in Hb.
    apply list_elem_of_filter in Hb as [Hne _]. by apply Hne.
  - induction d as [|b d IH]; [done|].
    destruct (decide (id b = id0)) as [Hb0|Hb0];
      destruct (decide (id b = id1)) as [Hb1|Hb1];
      repeat first [ rewrite (removeBlock_cons_match id0 b) by done
                   | rewrite (removeBlock_cons_match id1 b) by done
                   | rewrite (removeBlock_cons_other id0 b) by done
                   | rewrite (removeBlock_cons_other id1 b) by done ];
      by rewrite ?IH.
Qed.

End Composition.

(** ** Further facts: the export of composed documents *)

Section ExportComposition.

Implicit Types (d : list BlockData) (b : BlockData).

Lemma join_app (sep : string) (l1 l2 : list string) :
  l1 ≠ [] → l2 ≠ [] →
  join sep (l1 ++ l2) = join sep l1 +:+ sep +:+ join sep l2.
Proof.
  intros Hl1 Hl2. induction l1 as [|x l1 IH]; [done|].
  destruct l1 as [|y l1].
  - destruct l2 as [|z l2]; [done|]. reflexivity.
  - change (x +:+ sep +:+ join sep ((y :: l1) ++ l2)
            = (x +:+ sep +:+ join sep (y :: l1)) +:+ sep +:+ join sep l2).
    rewrite IH by done. by rewrite !append_assoc.
Qed.

(** X12: the export of two non-empty documents put one after the other
    is the export of the first, two newlines, and the export of the
    second. *)
Theorem generateMarkdownString_app (d1 d2 : list BlockData) :
  d1 ≠ [] → d2 ≠ [] →
  generateMarkdownString (d1 ++ d2)
  = generateMarkdownString d1 +:+ nl +:+ nl +:+ generateMarkdownString d2.
Proof.
  intros Hd1 Hd2. unfold generateMarkdownString.
  rewrite map_app, join_app, append_assoc; [done | |].
  - by destruct d1.
  - by destruct d2.
Qed.

Lemma generateMarkdownString_app_witness :
  generateMarkdownString (INITIAL_BLOCKS ++ INITIAL_BLOCKS)
  = generateMarkdownString INITIAL_BLOCKS +:+ nl +:+ nl
      +:+ generateMarkdownString INITIAL_BLOCKS.
Proof.
  apply (generateMarkdownString_app INITIAL_BLOCKS INITIAL_BLOCKS);
    discriminate.
Defined.

(** X13: a block that has just been added exports as the bare markup of
    its kind ("# " for [h1], an empty fence for [code], "![image]()" for
    [image], "- " and "1. " for the lists, ...), appended to the export of
    the document after two newlines, or alone when the document was
    empty. *)
Theorem addBlock_export (uuid : string) (k : BlockType) (d : list BlockData) :
  generateMarkdownString (addBlock uuid k d)
  = (match d with
     | [] => EmptyString
     | _ :: _ => generateMarkdownString d +:+ nl +:+ nl
     end)
    +:+ match k with
        | h1 => "# "
        | h2 => "## "
        | h3 => "### "
        | paragraph => EmptyString
        | blockquote => "> "
        | code => "```" +:+ nl +:+ nl +:+ "```"
        | image => "![image]()"
        | list_ul => "- "
        | list_ol => "1. "
        | divider => "---"
        end.
Proof.
  unfold addBlock, generateMarkdownString. destruct d as [|b d].
  - by destruct k.
  - rewrite map_app, join_app by done.
    rewrite !append_assoc. do 3 f_equal. by destruct k.
Qed.

Lemma Js_render_ignores_id (b c : Js.BlockData) :
  Js.type b = Js.type c → Js.content b = Js.content c →
  Js.metadata b = Js.metadata c → Js.render b = Js.render c.
Proof.
  intros Htype Hcontent Hmeta. unfold Js.render.
  by rewrite Htype, Hcontent, Hmeta.
Qed.

(** X14: an update whose partial fields carry no [type], [content] or
    [metadata] property (they carry at most an [id], with a value or as
    [undefined]) leaves the export as it is; on a document whose blocks
    hold no [undefined] the export after such an update is that of
    [generateMarkdownString] on the document. *)
Theorem updateBlock_id_only_keeps_export
  (id0 : string) (u : Js.PartialBlockData) :
  Js.p_type u = None → Js.p_content u = None → Js.p_metadata u = None →
  (∀ r : list Js.BlockData,
     Js.generateMarkdownString (Js.updateBlock id0 u r)
     = Js.generateMarkdownString r) ∧
  (∀ d : list BlockData,
     Js.generateMarkdownString (Js.updateBlock id0 u (map raw d))
     = generateMarkdownString d).
Proof.
  intros Htype Hcontent Hmeta.
  assert (Hraw : ∀ r : list Js.BlockData,
            Js.generateMarkdownString (Js.updateBlock id0 u r)
            = Js.generateMarkdownString r).
  { intros r. unfold Js.generateMarkdownString, Js.updateBlock.
    rewrite map_map. apply (f_equal (join (nl +:+ nl))).
    apply map_ext. intros c. case_bool_decide; [|done].
    apply Js_render_ignores_id; unfold Js.spread; simpl.
    - by rewrite Htype.
    - by rewrite Hcontent.
    - by rewrite Hmeta. }
  split; [exact Hraw|].
  intros d. rewrite Hraw. apply generateMarkdownString_raw.
Qed.

Lemma updateBlock_id_only_keeps_export_witness :
  Js.generateMarkdownString
    (Js.updateBlock "1" (Js.mkPartial (Some None) None None None)
       (map raw INITIAL_BLOCKS))
  = generateMarkdownString INITIAL_BLOCKS.
Proof.
  apply (proj2 (updateBlock_id_only_keeps_export "1"
                  (Js.mkPartial (Some None) None None None)
                  eq_refl eq_refl eq_refl)).
Defined.

End ExportComposition.

(** ** Further facts: the edit view *)

Section EditView.

(** X16: the edit view holds one editor per block, in document order,
    keyed by the id of its block.  In a document with pairwise distinct
    ids the flags of an editor tell when its move buttons do nothing:
    [isFirst] holds exactly when [moveBlock] "up" on its block returns
    the document, and [isLast] exactly when [moveBlock] "down" does. *)
Theorem blockEditors_flags
  (blocks : list BlockData) (i : nat) (p : BlockEditorProps) :
  NoDup (map id blocks) → blockEditors blocks !! i = Some p →
  length (blockEditors blocks) = length blocks ∧
  blocks !! i = Some (block p) ∧
  key p = id (block p) ∧
  (isFirst p = true ↔ moveBlock (key p) up blocks = blocks) ∧
  (isLast p = true ↔ moveBlock (key p) down blocks = blocks).
Proof.
  intros Hnd Hp. unfold blockEditors in *.
  split; [apply length_map_indexed|].
  rewrite lookup_map_indexed in Hp.
  destruct (blocks !! i) as [b|] eqn:Hi; [|done].
  injection Hp as <-. simpl.
  split; [done|]. split; [done|].
  destruct (split_at_unique blocks i b Hnd Hi)
    as (pre & post & -> & Hlen & Hpre & Hpost).
  rewrite moveBlock_up_fixed_iff, moveBlock_down_fixed_iff by done.
  rewrite !Z.eqb_eq, length_app. simpl. split.
  - split; [intros Hz; destruct pre; [done | simpl in Hlen; lia]|].
    intros ->. simpl in Hlen. lia.
  - split; [intros Hz; destruct post; [done | simpl in Hz; lia]|].
    intros ->. simpl. lia.
Qed.

Lemma blockEditors_flags_witness :
  blockEditors INITIAL_BLOCKS !! 0%nat
  = Some (mkEditor "1"
            (mkBlock "1" h1 "Welcome to MarkFlow" None) true false)
  ∧ moveBlock "1" up INITIAL_BLOCKS = INITIAL_BLOCKS.
Proof.
  split; [reflexivity|].
  apply (proj1 (proj2 (proj2 (proj2
           (blockEditors_flags INITIAL_BLOCKS 0
              (mkEditor "1"
                 (mkBlock "1" h1 "Welcome to MarkFlow" None) true false)
              ltac:(simpl; rewrite !NoDup_cons; repeat split;
                    try not_among_ids; apply NoDup_nil_2)
              eq_refl))))).
  reflexivity.
Defined.

End EditView.

End MarkFlow.
